(** * AssetStorage: a shallow embedding of contracts/AssetStorage.sol

    The contract (also reproduced verbatim in blockchain_metaverse_app.js)
    is

    <<
    contract AssetStorage {
        uint256 public nextId;
        mapping(uint256 => string) public cids;
        event AssetRegistered(uint256 indexed id, string cid);
        function register(string calldata cid) external returns (uint256 id) {
            id = nextId;
            cids[id] = cid;
            emit AssetRegistered(id, cid);
            nextId++;
        }
    }
    >>

    Storage is a record of the two state variables plus the event log.
    A [uint256] is a [Z] in [0, 2^256).  The mapping is a [gmap] holding
    the slots written so far; the public getter reads it with the
    Solidity default [""] for a slot never written.  Solidity 0.8
    arithmetic is checked: [nextId++] at [2^256 - 1] panics, and a
    panic reverts the whole transaction (storage writes and events). *)

From stdpp Require Import base gmap strings list fin_maps.
From Stdlib Require Import ZArith Lia.

Open Scope Z_scope.

Module AssetStorage.

(** ** Data *)

Definition UINT256_MAX : Z := 2 ^ 256 - 1.

(** [event AssetRegistered(uint256 indexed id, string cid)] *)
Record AssetRegistered := mkAssetRegistered {
  ev_id : Z;
  ev_cid : string
}.

Record state := mkState {
  nextId : Z;
  cids : gmap Z string;
  logs : list AssetRegistered
}.

(** A freshly deployed contract: all storage zero, no events. *)
Definition init : state := {| nextId := 0; cids := ∅; logs := [] |}.

(** The primitive effects a transaction performs, in program order. *)
Inductive action :=
  | SStoreCid (k : Z) (v : string)
  | Emit (e : AssetRegistered)
  | SStoreNextId (n : Z).

(** ** The transaction monad: state, journal of effects, revert *)

Definition M (A : Type) : Type := state -> option (A * state * list action).

Definition ret {A} (a : A) : M A := fun s => Some (a, s, []).

Definition bind {A B} (m : M A) (f : A -> M B) : M B :=
  fun s =>
    match m s with
    | None => None
    | Some (a, s1, j1) =>
        match f a s1 with
        | None => None
        | Some (b, s2, j2) => Some (b, s2, j1 ++ j2)
        end
    end.

Notation "x <- m ;; k" := (bind m (fun x => k))
  (at level 100, m at next level, right associativity).
Notation "m ;;; k" := (bind m (fun _ => k))
  (at level 100, right associativity).

Definition revert {A} : M A := fun _ => None.

Definition sload_nextId : M Z := fun s => Some (nextId s, s, []).

Definition sstore_nextId (n : Z) : M unit :=
  fun s => Some (tt, {| nextId := n; cids := cids s; logs := logs s |},
                 [SStoreNextId n]).

Definition sload_cid (k : Z) : M string :=
  fun s => Some (default "" (cids s !! k), s, []).

Definition sstore_cid (k : Z) (v : string) : M unit :=
  fun s => Some (tt, {| nextId := nextId s; cids := <[k := v]> (cids s);
                        logs := logs s |}, [SStoreCid k v]).

Definition emit (e : AssetRegistered) : M unit :=
  fun s => Some (tt, {| nextId := nextId s; cids := cids s;
                        logs := logs s ++ [e] |}, [Emit e]).

(** Checked [uint256] addition of Solidity 0.8 (panic 0x11 on overflow). *)
Definition checked_add (a b : Z) : M Z :=
  if a + b <=? UINT256_MAX then ret (a + b) else revert.

(** ** The contract's functions *)

(** [function register(string calldata cid) external returns (uint256 id)] *)
Definition register_body (cid : string) : M Z :=
  id <- sload_nextId ;;
  sstore_cid id cid ;;;
  emit (mkAssetRegistered id cid) ;;;
  n <- sload_nextId ;;
  n' <- checked_add n 1 ;;
  sstore_nextId n' ;;;
  ret id.

(** The public getter of [uint256 public nextId]. *)
Definition nextId_getter : M Z := sload_nextId.

(** The public getter of [mapping(uint256 => string) public cids]. *)
Definition cids_getter (h : Z) : M string := sload_cid h.

(** A transaction: on revert the pre-state is kept and nothing is returned. *)
Definition transact {A} (m : M A) (s : state) : option A * state :=
  match m s with
  | None => (None, s)
  | Some (a, s', _) => (Some a, s')
  end.

(** [register] as a call: [Some (id, s')] on success, [None] on revert. *)
Definition register (s : state) (cid : string) : option (Z * state) :=
  match register_body cid s with
  | None => None
  | Some (id, s', _) => Some (id, s')
  end.

(** Result of a read-only call of the [cids] getter. *)
Definition cids_get (s : state) (h : Z) : string := default "" (cids s !! h).

(** Result of a read-only call of the [nextId] getter. *)
Definition count (s : state) : Z := nextId s.

(** ** Calls from outside: the contract's whole external interface *)

Inductive call :=
  | CallRegister (cid : string)
  | CallCids (h : Z)
  | CallNextId.

Definition step (s : state) (c : call) : state :=
  match c with
  | CallRegister cid => snd (transact (register_body cid) s)
  | CallCids h => snd (transact (cids_getter h) s)
  | CallNextId => snd (transact nextId_getter s)
  end.

Fixpoint exec (s : state) (cs : list call) : state :=
  match cs with
  | [] => s
  | c :: cs' => exec (step s c) cs'
  end.

Definition reachable (s : state) : Prop := exists cs, exec init cs = s.

(** [n] register calls in sequence, all succeeding; the handles returned. *)
Fixpoint register_all (s : state) (l : list string) : option (list Z * state) :=
  match l with
  | [] => Some ([], s)
  | cid :: l' =>
      match register s cid with
      | None => None
      | Some (id, s1) =>
          match register_all s1 l' with
          | None => None
          | Some (ids, s2) => Some (id :: ids, s2)
          end
      end
  end.

(** What an indexer rebuilds from the [AssetRegistered] events, read in
    log order: each event writes its [cid] at its [id]. *)
Definition replay (l : list AssetRegistered) : gmap Z string :=
  foldl (fun m e => <[ev_id e := ev_cid e]> m) ∅ l.

(** The CIDs passed to [register] in a sequence of calls, in call order. *)
Fixpoint registered (cs : list call) : list string :=
  match cs with
  | [] => []
  | CallRegister cid :: cs' => cid :: registered cs'
  | _ :: cs' => registered cs'
  end.

(** ** Well-formed storage

    The slots written are exactly [0 .. nextId - 1], and [nextId] is a
    [uint256]. *)
Definition inv (s : state) : Prop :=
  0 <= nextId s <= UINT256_MAX /\
  (forall k, is_Some (cids s !! k) <-> 0 <= k < nextId s).

(** ** Basic facts about the embedding *)

Example register_twice :
  option_map fst (register_all init ["cidA"; "cidB"]%string) = Some [0; 1].
Proof. reflexivity. Qed.

Lemma register_body_eq (cid : string) (s : state) :
  register_body cid s =
  if nextId s + 1 <=? UINT256_MAX then
    Some (nextId s,
          {| nextId := nextId s + 1;
             cids := <[nextId s := cid]> (cids s);
             logs := logs s ++ [mkAssetRegistered (nextId s) cid] |},
          [SStoreCid (nextId s) cid;
           Emit (mkAssetRegistered (nextId s) cid);
           SStoreNextId (nextId s + 1)])
  else None.
Proof.
  unfold register_body, bind, sload_nextId, sstore_cid, emit, checked_add,
    sstore_nextId, ret, revert; simpl.
  destruct (nextId s + 1 <=? UINT256_MAX); reflexivity.
Qed.

Lemma register_eq (s : state) (cid : string) :
  register s cid =
  if nextId s + 1 <=? UINT256_MAX then
    Some (nextId s,
          {| nextId := nextId s + 1;
             cids := <[nextId s := cid]> (cids s);
             logs := logs s ++ [mkAssetRegistered (nextId s) cid] |})
  else None.
Proof.
  unfold register; rewrite register_body_eq.
  destruct (nextId s + 1 <=? UINT256_MAX); reflexivity.
Qed.

Lemma step_register (s : state) (cid : string) :
  step s (CallRegister cid) =
  match register s cid with Some (_, s') => s' | None => s end.
Proof.
  unfold step, transact, register.
  destruct (register_body cid s) as [[[? ?] ?]|]; reflexivity.
Qed.

Lemma step_read (s : state) (c : call) :
  (forall cid, c <> CallRegister cid) -> step s c = s.
Proof. intros H; destruct c; [exfalso; eapply H; reflexivity | reflexivity ..]. Qed.

(** The only call that changes storage is a successful [register]. *)
Lemma step_cases (s : state) (c : call) :
  step s c = s \/
  exists cid, nextId s + 1 <= UINT256_MAX /\
    step s c = {| nextId := nextId s + 1;
                  cids := <[nextId s := cid]> (cids s);
                  logs := logs s ++ [mkAssetRegistered (nextId s) cid] |}.
Proof.
  destruct c as [cid | h |]; [| left; reflexivity ..].
  rewrite step_register, register_eq.
  destruct (Z.leb_spec (nextId s + 1) UINT256_MAX); [right | left; reflexivity].
  exists cid; split; [lia | reflexivity].
Qed.

Lemma inv_init : inv init.
Proof.
  split; [unfold UINT256_MAX; simpl; lia |].
  intros k; simpl; rewrite lookup_empty; split; [intros [? H]; discriminate | lia].
Qed.

Lemma inv_step (s : state) (c : call) : inv s -> inv (step s c).
Proof.
  intros [Hb Hk].
  destruct (step_cases s c) as [-> | [cid [Hle ->]]]; [split; assumption |].
  split; simpl; [lia |].
  intros k; rewrite lookup_insert.
  case_decide as Heq; [subst; split; [lia | eauto] |].
  rewrite Hk; lia.
Qed.

Lemma inv_exec (s : state) (cs : list call) : inv s -> inv (exec s cs).
Proof.
  revert s; induction cs as [|c cs IH]; intros s Hs; simpl; [exact Hs |].
  apply IH, inv_step, Hs.
Qed.

Lemma reachable_inv (s : state) : reachable s -> inv s.
Proof. intros [cs <-]; apply inv_exec, inv_init. Qed.

Lemma exec_app (s : state) (cs1 cs2 : list call) :
  exec s (cs1 ++ cs2) = exec (exec s cs1) cs2.
Proof.
  revert s; induction cs1 as [|c cs1 IH]; intros s; simpl; [reflexivity |].
  apply IH.
Qed.

Lemma reachable_step (s : state) (c : call) :
  reachable s -> reachable (step s c).
Proof. intros [cs <-]; exists (cs ++ [c]); rewrite exec_app; reflexivity. Qed.

Lemma nextId_step_mono (s : state) (c : call) : nextId s <= nextId (step s c).
Proof. destruct (step_cases s c) as [-> | [cid [_ ->]]]; simpl; lia. Qed.

(** Once assigned, a slot is never written again: only slot [nextId] is. *)
Lemma exec_keeps_assigned (s : state) (cs : list call) (h : Z) :
  h < nextId s -> cids (exec s cs) !! h = cids s !! h.
Proof.
  revert s; induction cs as [|c cs IH]; intros s Hh; simpl; [reflexivity |].
  pose proof (nextId_step_mono s c) as Hm.
  rewrite IH by lia.
  destruct (step_cases s c) as [-> | [cid [_ ->]]]; [reflexivity |].
  simpl; apply lookup_insert_ne; lia.
Qed.

Lemma register_all_handles (s : state) (l : list string) ids s' :
  register_all s l = Some (ids, s') ->
  ids = map (fun i => nextId s + Z.of_nat i) (seq 0 (length l)).
Proof.
  revert s ids s'; induction l as [|cid l IH]; intros s ids s' H; simpl in H.
  - injection H as <- _; reflexivity.
  - rewrite register_eq in H.
    destruct (nextId s + 1 <=? UINT256_MAX); [| discriminate].
    destruct (register_all _ l) as [[ids1 s1]|] eqn:E; [| discriminate].
    injection H as <- _.
    apply IH in E; simpl in E; subst ids1.
    simpl; f_equal; [lia |].
    rewrite <- seq_shift, map_map; apply map_ext; intros i; lia.
Qed.

Lemma register_step (s : state) (cid : string) h s' :
  register s cid = Some (h, s') -> step s (CallRegister cid) = s'.
Proof. intros H; rewrite step_register, H; reflexivity. Qed.

(** A contract whose counter has reached [2^256 - 1].  The outcome of
    [register] depends on [nextId] only (see [register_eq]), so the
    contents of the mapping do not matter here. *)
Definition s_full : state := {| nextId := UINT256_MAX; cids := ∅; logs := [] |}.

(** The state after [2^256 - 1] calls [register("")] on a fresh contract. *)
Definition s_maxed : state :=
  exec init (repeat (CallRegister "") (Z.to_nat UINT256_MAX)).

(** The state after [register("")] on a fresh contract. *)
Definition s_empty_cid : state := exec init [CallRegister ""].

(** The state after [register("cidA")] then [register("cidB")]. *)
Definition s_two : state := exec init [CallRegister "cidA"; CallRegister "cidB"].

(** Keys written to the [cids] mapping are below [nextId]. *)
Definition keys_below (s : state) : Prop :=
  forall k, is_Some (cids s !! k) -> k < nextId s.

(** ** Claims *)

(** C1 (counterexample): when [nextId] is [2^256 - 1], [register] does
    not assign a handle: [nextId++] overflows and the call reverts. *)
Lemma register_C1_counterexample :
  ~ (exists h s', register s_full "cidX" = Some (h, s')).
Proof. intros [h [s' H]]; rewrite register_eq in H; discriminate H. Qed.

(** C1 (amended): in every reachable state with [nextId < 2^256 - 1],
    [register(cid)] returns [nextId], stores [cid] at slot [nextId] (a
    slot not written before, so exactly one new record), leaves every
    other slot as it was, appends exactly the event [(nextId, cid)] and
    increments [nextId] by exactly 1; when [nextId = 2^256 - 1] the call
    reverts and the state is unchanged. *)
Theorem register_C1_amended (s : state) (cid : string) :
  reachable s ->
  (nextId s < UINT256_MAX ->
   exists s', register s cid = Some (nextId s, s') /\
     nextId s' = nextId s + 1 /\
     cids s' !! nextId s = Some cid /\
     (forall k, k <> nextId s -> cids s' !! k = cids s !! k) /\
     logs s' = logs s ++ [mkAssetRegistered (nextId s) cid] /\
     cids s !! nextId s = None /\
     dom (cids s') = {[nextId s]} ∪ dom (cids s)) /\
  (nextId s = UINT256_MAX ->
   register s cid = None /\ step s (CallRegister cid) = s).
Proof.
  intros Hr; pose proof (reachable_inv s Hr) as [Hb Hk]; split.
  - intros Hlt; rewrite register_eq.
    destruct (Z.leb_spec (nextId s + 1) UINT256_MAX); [| lia].
    eexists; split; [reflexivity |]; simpl.
    split; [reflexivity |]; split; [apply lookup_insert_eq |].
    split; [intros k Hne; apply lookup_insert_ne; congruence |].
    split; [reflexivity |].
    assert (Hn : cids s !! nextId s = None)
      by (apply eq_None_not_Some; rewrite Hk; lia).
    split; [exact Hn | apply dom_insert_L].
  - intros Heq; rewrite step_register, register_eq.
    destruct (Z.leb_spec (nextId s + 1) UINT256_MAX); [lia |]; split; reflexivity.
Qed.

Lemma register_C1_witness :
  reachable init /\ exists s', register init "cidX" = Some (0, s').
Proof.
  assert (Hr : reachable init) by (exists []; reflexivity).
  split; [exact Hr |].
  assert (Hlt : nextId init < UINT256_MAX) by (vm_compute; reflexivity).
  destruct (proj1 (register_C1_amended init "cidX" Hr) Hlt) as [s' [H _]].
  exists s'; exact H.
Defined.

(** C2: [N] register calls in sequence from the fresh contract, all
    succeeding, return the handles [0, 1, ..., N - 1] in order. *)
Theorem register_all_C2 (l : list string) ids s' :
  register_all init l = Some (ids, s') ->
  ids = map Z.of_nat (seq 0 (length l)).
Proof.
  intros H; rewrite (register_all_handles init l ids s' H).
  apply map_ext; intros i; simpl; lia.
Qed.

Lemma register_all_C2_witness :
  register_all init ["cidA"; "cidB"] = Some ([0; 1], s_two) /\
  [0; 1] = map Z.of_nat (seq 0 2).
Proof.
  assert (H : register_all init ["cidA"; "cidB"] = Some ([0; 1], s_two))
    by reflexivity.
  split; [exact H | exact (register_all_C2 ["cidA"; "cidB"] [0; 1] s_two H)].
Defined.

(** C3 (counterexample): after [register("")] on a fresh contract the
    [cids] getter answers [""] for the assigned handle [0], the same answer
    it gives for an unassigned handle, although [0 < nextId]. *)
Lemma cids_C3_counterexample :
  ~ (forall s h, reachable s -> (cids_get s h = "" <-> nextId s <= h)).
Proof.
  intros H.
  assert (Hr : reachable s_empty_cid) by (exists [CallRegister ""]; reflexivity).
  assert (Hg : cids_get s_empty_cid 0 = "") by reflexivity.
  assert (Hn : nextId s_empty_cid = 1) by reflexivity.
  apply (H s_empty_cid 0 Hr) in Hg; lia.
Qed.

(** C3 (amended): the lookup is the [cids] getter; it never reverts and
    returns a normal value.  In every reachable state it returns [""] for
    every handle [h >= nextId], and for [0 <= h < nextId] it returns the
    CID stored at [h] (which is [""] itself when [""] was registered). *)
Theorem cids_C3_amended (s : state) (h : Z) :
  reachable s ->
  transact (cids_getter h) s = (Some (cids_get s h), s) /\
  (nextId s <= h -> cids_get s h = "") /\
  (0 <= h < nextId s -> exists cid, cids s !! h = Some cid /\ cids_get s h = cid).
Proof.
  intros Hr; pose proof (reachable_inv s Hr) as [_ Hk].
  split; [reflexivity |]; split.
  - intros Hle; unfold cids_get.
    destruct (cids s !! h) eqn:E; [| reflexivity].
    assert (Hs : is_Some (cids s !! h)) by (rewrite E; eauto).
    apply Hk in Hs; lia.
  - intros Hlt; apply Hk in Hlt as [cid E].
    exists cid; unfold cids_get; rewrite E; split; reflexivity.
Qed.

Lemma cids_C3_witness :
  reachable s_empty_cid /\ cids_get s_empty_cid 5 = "".
Proof.
  assert (Hr : reachable s_empty_cid) by (exists [CallRegister ""]; reflexivity).
  split; [exact Hr |].
  apply (proj1 (proj2 (cids_C3_amended s_empty_cid 5 Hr))).
  vm_compute; discriminate.
Defined.

(** C4: every key of [cids] is below [nextId] in every state reached
    from the fresh contract, and every call (register or either getter)
    preserves this. *)
Theorem keys_below_C4 (s : state) (c : call) :
  (reachable s -> keys_below s) /\
  (keys_below s -> keys_below (step s c)).
Proof.
  split.
  - intros Hr k Hs; apply (reachable_inv s Hr) in Hs; lia.
  - intros Hk k; pose proof (nextId_step_mono s c) as Hm.
    destruct (step_cases s c) as [-> | [cid [_ ->]]]; [apply Hk |].
    simpl; rewrite lookup_insert; case_decide; [lia |].
    intros Hs; apply Hk in Hs; lia.
Qed.

Lemma keys_below_C4_witness :
  keys_below s_empty_cid /\ 0 < nextId s_empty_cid.
Proof.
  assert (Hr : reachable s_empty_cid) by (exists [CallRegister ""]; reflexivity).
  split; [exact (proj1 (keys_below_C4 s_empty_cid CallNextId) Hr) |].
  vm_compute; reflexivity.
Defined.

(** C5: a handle once assigned keeps its CID: whatever calls follow
    (the interface has no update or delete), the slot is unchanged. *)
Theorem assigned_immutable_C5 (s : state) (cs : list call) (h : Z) :
  h < nextId s ->
  cids (exec s cs) !! h = cids s !! h /\
  cids_get (exec s cs) h = cids_get s h.
Proof.
  intros Hh; pose proof (exec_keeps_assigned s cs h Hh) as E.
  split; [exact E | unfold cids_get; rewrite E; reflexivity].
Qed.

Lemma assigned_immutable_C5_witness :
  cids_get (exec s_empty_cid [CallRegister "cidB"; CallRegister "cidC"]) 0 = "".
Proof.
  rewrite (proj2 (assigned_immutable_C5 s_empty_cid
                    [CallRegister "cidB"; CallRegister "cidC"] 0
                    ltac:(vm_compute; reflexivity))).
  reflexivity.
Defined.

(** C6: on a fresh contract [nextId()] returns [0] and [cids(0)] returns
    the not-found answer [""]; in every state the [nextId] getter returns
    [nextId] and changes nothing. *)
Theorem count_C6 :
  count init = 0 /\
  transact (cids_getter 0) init = (Some "", init) /\
  (forall s, transact nextId_getter s = (Some (count s), s)).
Proof. split; [reflexivity | split; [reflexivity | intros s; reflexivity]]. Qed.

(** C7: two [register] calls with the same CID on a fresh contract both
    succeed, with handles [0] and [1], each slot holding that CID. *)
Theorem duplicate_cid_C7 (cid : string) :
  exists s1 s2,
    register init cid = Some (0, s1) /\ register s1 cid = Some (1, s2) /\
    cids s2 !! 0 = Some cid /\ cids s2 !! 1 = Some cid.
Proof.
  do 2 eexists; split; [reflexivity |]; split; [reflexivity |].
  simpl; split; reflexivity.
Qed.

(** C8 (amended): [register] checks nothing about the CID: whether it
    reverts depends only on the counter (it reverts exactly when the
    increment overflows, at [nextId = 2^256 - 1]), and whenever
    [nextId < 2^256 - 1] it succeeds and stores the CID as given,
    including [""]. *)
Theorem register_no_validation_C8 (s : state) (cid : string) :
  (register s cid = None <-> UINT256_MAX <= nextId s) /\
  (nextId s < UINT256_MAX ->
   exists s', register s cid = Some (nextId s, s') /\
     cids s' !! nextId s = Some cid /\ cids_get s' (nextId s) = cid).
Proof.
  rewrite register_eq; split.
  - destruct (Z.leb_spec (nextId s + 1) UINT256_MAX); split; intros; try lia;
      [discriminate | reflexivity].
  - intros Hlt; destruct (Z.leb_spec (nextId s + 1) UINT256_MAX); [| lia].
    eexists; split; [reflexivity |].
    unfold cids_get; simpl; rewrite lookup_insert_eq; split; reflexivity.
Qed.

Lemma register_no_validation_C8_witness :
  exists s', register init "" = Some (0, s') /\ cids_get s' 0 = "".
Proof.
  destruct (proj2 (register_no_validation_C8 init "")
              ltac:(vm_compute; reflexivity)) as [s' [H1 [_ H2]]].
  exists s'; split; [exact H1 | exact H2].
Defined.

(** C9: a successful [register(cid)] performs, in this order, the store
    of [cid] at the assigned handle, exactly one [AssetRegistered] event
    carrying that handle and [cid], then the counter update; the
    committed log gains exactly that one event.  A reverted call commits
    no event. *)
Theorem register_event_C9 (s : state) (cid : string) (id : Z) (s' : state)
  (j : list action) :
  register_body cid s = Some (id, s', j) ->
  id = nextId s /\
  j = [SStoreCid id cid; Emit (mkAssetRegistered id cid); SStoreNextId (id + 1)] /\
  logs s' = logs s ++ [mkAssetRegistered id cid] /\
  logs (step s (CallRegister cid)) = logs s'.
Proof.
  intros H; pose proof H as H0; rewrite register_body_eq in H.
  destruct (nextId s + 1 <=? UINT256_MAX); [| discriminate].
  injection H as <- <- <-; simpl.
  split; [reflexivity |]; split; [reflexivity |]; split; [reflexivity |].
  unfold step, transact; rewrite H0; reflexivity.
Qed.

Lemma register_event_C9_witness :
  logs (step init (CallRegister "cidA")) = [mkAssetRegistered 0 "cidA"].
Proof.
  destruct (register_event_C9 init "cidA" 0
              (step init (CallRegister "cidA"))
              [SStoreCid 0 "cidA"; Emit (mkAssetRegistered 0 "cidA");
               SStoreNextId 1]
              ltac:(vm_compute; reflexivity)) as [_ [_ [H _]]].
  exact H.
Defined.

(** C10: if [register("")] succeeds with handle [h] on a reachable
    contract, the [cids] getter answers [""] for [h], which is also what
    it answers for every unassigned handle. *)
Theorem empty_cid_indistinguishable_C10 (s : state) (h : Z) (s' : state) :
  reachable s -> register s "" = Some (h, s') ->
  cids_get s' h = "" /\ (forall h', nextId s' <= h' -> cids_get s' h' = "").
Proof.
  intros Hr H.
  assert (Hr' : reachable s') by (rewrite <- (register_step s "" h s' H);
                                  apply reachable_step, Hr).
  pose proof (reachable_inv s' Hr') as [_ Hk].
  split.
  - rewrite register_eq in H.
    destruct (nextId s + 1 <=? UINT256_MAX); [| discriminate].
    injection H as <- <-; unfold cids_get; simpl.
    rewrite lookup_insert_eq; reflexivity.
  - intros h' Hle; unfold cids_get.
    destruct (cids s' !! h') eqn:E; [| reflexivity].
    assert (Hs : is_Some (cids s' !! h')) by (rewrite E; eauto).
    apply Hk in Hs; lia.
Qed.

Lemma empty_cid_indistinguishable_C10_witness :
  cids_get s_empty_cid 0 = cids_get s_empty_cid 1.
Proof.
  assert (Hr : reachable init) by (exists []; reflexivity).
  assert (H : register init "" = Some (0, s_empty_cid)) by reflexivity.
  destruct (empty_cid_indistinguishable_C10 init 0 s_empty_cid Hr H) as [H0 H1].
  rewrite H0, (H1 1 ltac:(vm_compute; discriminate)); reflexivity.
Defined.

(** ** Further properties of the contract *)

Lemma replay_snoc (l : list AssetRegistered) (e : AssetRegistered) :
  replay (l ++ [e]) = <[ev_id e := ev_cid e]> (replay l).
Proof. unfold replay; rewrite foldl_app; reflexivity. Qed.

Definition log_mirrors (s : state) : Prop :=
  replay (logs s) = cids s /\
  nextId s = Z.of_nat (length (logs s)) /\
  map ev_id (logs s) = map Z.of_nat (seq 0 (length (logs s))).

Lemma log_mirrors_step (s : state) (c : call) :
  log_mirrors s -> log_mirrors (step s c).
Proof.
  intros (Hr & Hn & Hi).
  destruct (step_cases s c) as [-> | [cid [_ ->]]]; [split; [|split]; assumption |].
  unfold log_mirrors; simpl; rewrite replay_snoc, Hr, length_app; simpl.
  split; [reflexivity |]; split; [lia |].
  rewrite map_app, Hi, Nat.add_1_r, seq_S, map_app; simpl; f_equal; f_equal; lia.
Qed.

Lemma log_mirrors_exec (s : state) (cs : list call) :
  log_mirrors s -> log_mirrors (exec s cs).
Proof.
  revert s; induction cs as [|c cs IH]; intros s Hs; simpl; [exact Hs |].
  apply IH, log_mirrors_step, Hs.
Qed.

(** X1: the event log mirrors storage: replaying the [AssetRegistered]
    events in order rebuilds the [cids] mapping exactly, there is one
    event per assigned handle, and the events carry the handles
    [0, 1, ..., nextId - 1] in that order. *)
Theorem logs_replay_X1 (s : state) :
  reachable s ->
  replay (logs s) = cids s /\
  nextId s = Z.of_nat (length (logs s)) /\
  map ev_id (logs s) = map Z.of_nat (seq 0 (length (logs s))).
Proof.
  intros [cs <-]; apply log_mirrors_exec.
  split; [reflexivity | split; reflexivity].
Qed.

Lemma logs_replay_X1_witness :
  replay (logs s_two) = cids s_two.
Proof.
  assert (Hr : reachable s_two)
    by (exists [CallRegister "cidA"; CallRegister "cidB"]; reflexivity).
  exact (proj1 (logs_replay_X1 s_two Hr)).
Defined.

Lemma nextId_exec (s : state) (cs : list call) :
  nextId s <= UINT256_MAX ->
  nextId (exec s cs) =
  Z.min (nextId s + Z.of_nat (length (registered cs))) UINT256_MAX.
Proof.
  revert s; induction cs as [|c cs IH]; intros s Hs; simpl; [lia |].
  destruct c as [cid | h |];
    [| rewrite step_read by congruence; apply IH, Hs ..].
  rewrite step_register, register_eq.
  destruct (Z.leb_spec (nextId s + 1) UINT256_MAX) as [Hle | Hgt].
  - rewrite IH by (simpl; lia); simpl; lia.
  - rewrite IH by lia; simpl; lia.
Qed.

(** X2: after any sequence of calls on a fresh contract, [nextId] is the
    number of [register] calls in it, capped at [2^256 - 1] (the calls
    beyond the cap revert). *)
Theorem nextId_after_calls_X2 (cs : list call) :
  nextId (exec init cs) =
  Z.min (Z.of_nat (length (registered cs))) UINT256_MAX.
Proof.
  rewrite nextId_exec by (vm_compute; discriminate); reflexivity.
Qed.

Lemma keys_below_step (s : state) (c : call) :
  keys_below s -> keys_below (step s c).
Proof.
  intros Hk k; pose proof (nextId_step_mono s c) as Hm.
  destruct (step_cases s c) as [-> | [cid [_ ->]]]; [apply Hk |].
  simpl; rewrite lookup_insert; case_decide; [lia |].
  intros Hs; apply Hk in Hs; lia.
Qed.

Lemma cids_exec_fresh (s : state) (cs : list call) (k : nat) :
  keys_below s ->
  nextId s + Z.of_nat (length (registered cs)) <= UINT256_MAX ->
  cids (exec s cs) !! (nextId s + Z.of_nat k) = registered cs !! k.
Proof.
  revert s k; induction cs as [|c cs IH]; intros s k Hk Hb; simpl.
  - destruct (cids s !! (nextId s + Z.of_nat k)) eqn:E; [| reflexivity].
    assert (Hs : is_Some (cids s !! (nextId s + Z.of_nat k))) by (rewrite E; eauto).
    apply Hk in Hs; lia.
  - destruct c as [cid | h |];
      [| rewrite step_read by congruence; apply IH; assumption ..].
    simpl in Hb.
    pose proof (keys_below_step s (CallRegister cid) Hk) as Hk1.
    rewrite step_register, register_eq in *.
    destruct (Z.leb_spec (nextId s + 1) UINT256_MAX); [| lia].
    destruct k as [|k]; simpl.
    + rewrite Z.add_0_r, exec_keeps_assigned by (simpl; lia).
      apply lookup_insert_eq.
    + replace (nextId s + Z.of_nat (S k)) with ((nextId s + 1) + Z.of_nat k) by lia.
      apply (IH _ k Hk1); simpl; lia.
Qed.

(** X3: as long as at most [2^256 - 1] registrations were made, the
    storage after any call sequence on a fresh contract holds at handle
    [k] exactly the CID of the [k]-th [register] call (counting from 0),
    and nothing at handles past the last one. *)
Theorem cids_after_calls_X3 (cs : list call) (k : Z) :
  Z.of_nat (length (registered cs)) <= UINT256_MAX -> 0 <= k ->
  cids (exec init cs) !! k = registered cs !! Z.to_nat k.
Proof.
  intros Hb Hk.
  replace k with (nextId init + Z.of_nat (Z.to_nat k)) at 1 by (simpl; lia).
  apply cids_exec_fresh; [| exact Hb].
  intros k' Hs; simpl in Hs; rewrite lookup_empty in Hs; destruct Hs; discriminate.
Qed.

Lemma cids_after_calls_X3_witness :
  cids (exec init [CallRegister "cidA"; CallNextId; CallCids 0;
                   CallRegister "cidB"]) !! 1 = Some "cidB".
Proof.
  apply (cids_after_calls_X3
           [CallRegister "cidA"; CallNextId; CallCids 0; CallRegister "cidB"] 1);
    vm_compute; [discriminate | discriminate].
Defined.

(** X4: once [nextId] has reached [2^256 - 1] the contract is frozen:
    every later call, [register] included, leaves the state unchanged. *)
Theorem frozen_at_max_X4 (s : state) (cs : list call) :
  nextId s = UINT256_MAX -> exec s cs = s.
Proof.
  revert s; induction cs as [|c cs IH]; intros s Hs; simpl; [reflexivity |].
  destruct (step_cases s c) as [-> | [cid [Hle _]]]; [apply IH, Hs | lia].
Qed.

Lemma frozen_at_max_X4_witness :
  exec s_full [CallRegister "cidA"; CallRegister ""] = s_full.
Proof. apply frozen_at_max_X4; reflexivity. Defined.

Lemma register_all_nextId (s : state) (l : list string) ids s' :
  register_all s l = Some (ids, s') ->
  nextId s' = nextId s + Z.of_nat (length l).
Proof.
  revert s ids s'; induction l as [|cid l IH]; intros s ids s' H; simpl in H.
  - injection H as _ <-; simpl; lia.
  - rewrite register_eq in H.
    destruct (nextId s + 1 <=? UINT256_MAX); [| discriminate].
    destruct (register_all _ l) as [[ids1 s1]|] eqn:E; [| discriminate].
    injection H as _ <-; apply IH in E; simpl in E; simpl; lia.
Qed.

(** X5: a batch of [register] calls from a state with [nextId <= 2^256 - 1]
    all succeed exactly when [nextId + N <= 2^256 - 1] for a batch of [N]
    CIDs, and then [nextId] grows by exactly [N]. *)
Theorem register_batch_X5 (s : state) (l : list string) :
  nextId s <= UINT256_MAX ->
  (is_Some (register_all s l) <-> nextId s + Z.of_nat (length l) <= UINT256_MAX) /\
  (forall ids s', register_all s l = Some (ids, s') ->
     nextId s' = nextId s + Z.of_nat (length l)).
Proof.
  intros Hs; split; [| apply register_all_nextId].
  revert s Hs; induction l as [|cid l IH]; intros s Hs; simpl.
  - split; [lia | eauto].
  - rewrite register_eq.
    destruct (Z.leb_spec (nextId s + 1) UINT256_MAX) as [Hle | Hgt].
    + match goal with |- context [register_all ?s1 l] =>
        specialize (IH s1 Hle) end; simpl in IH.
      destruct (register_all _ l) as [[ids1 s1]|].
      * assert (Hb := proj1 IH (ex_intro _ _ eq_refl)).
        split; [intros _; lia | eauto].
      * split; [intros [? H]; discriminate | intros H; apply IH; lia].
    + split; [intros [? H]; discriminate | lia].
Qed.

Lemma register_batch_X5_witness :
  is_Some (register_all init ["cidA"; "cidA"; ""]).
Proof.
  apply (proj2 (proj1 (register_batch_X5 init ["cidA"; "cidA"; ""]
                        ltac:(vm_compute; discriminate))));
    vm_compute; discriminate.
Defined.

Lemma registered_repeat (cid : string) (n : nat) :
  registered (repeat (CallRegister cid) n) = repeat cid n.
Proof. induction n as [|n IH]; simpl; [reflexivity | rewrite IH; reflexivity]. Qed.

Lemma nextId_s_maxed : nextId s_maxed = UINT256_MAX.
Proof.
  unfold s_maxed; rewrite nextId_exec by (vm_compute; discriminate).
  rewrite registered_repeat, repeat_length, Z2Nat.id
    by (vm_compute; discriminate).
  cbn [nextId init]; lia.
Qed.

(** C8 (counterexample): after [2^256 - 1] registrations on a fresh
    contract (a reachable state), [register(cid)] reverts for every
    [cid], [""] and well-formed CIDs alike, so it does not succeed for
    every string. *)
Lemma register_C8_counterexample :
  ~ (forall s cid, reachable s -> exists h s', register s cid = Some (h, s')).
Proof.
  intros H.
  assert (Hr : reachable s_maxed)
    by (exists (repeat (CallRegister "") (Z.to_nat UINT256_MAX));
        unfold s_maxed; exact eq_refl).
  destruct (H s_maxed "cidX" Hr) as [h [s' Hs]].
  rewrite register_eq, nextId_s_maxed in Hs; discriminate Hs.
Qed.

End AssetStorage.

(** * UploadAndMint: the [handleMint] handler of the React front end

    [handleMint] (blockchain_metaverse_app.js) is an async function whose
    body runs in a [try] block: every [await] either resolves with a
    value or throws, and a throw jumps to the [catch] block, which logs
    the error and sets the error status.  The outside world (IPFS, the
    wallet, the chain) is an environment giving how each awaited promise,
    or each constructor that may throw, settles.  The handler's
    observable effects are its [setStatus] calls (the last one is what
    the page shows), the [contract.register(cid)] call it sends, and
    [console.error]. *)
Module UploadAndMint.

Inductive settled (A : Type) :=
  | Resolved (a : A)
  | Rejected (message : string).
Arguments Resolved {A} a.
Arguments Rejected {A} message.

Record env := mkEnv {
  ipfs_add : settled string;             (* (await ipfs.add(file)).path *)
  web3_provider : settled unit;          (* new ethers.providers.Web3Provider(window.ethereum) *)
  request_accounts : settled unit;       (* await provider.send('eth_requestAccounts', []) *)
  get_signer : settled unit;             (* provider.getSigner() *)
  new_contract : settled unit;           (* new ethers.Contract(CONTRACT_ADDRESS, abi, signer) *)
  contract_register : string -> settled unit;  (* await contract.register(cid) *)
  tx_wait : settled unit                 (* await tx.wait() *)
}.

Inductive effect :=
  | SetStatus (status : string)
  | ContractRegister (cid : string)
  | ConsoleError (message : string).

(** A JS computation: the effects it performed, then its value or the
    [message] of the error it threw. *)
Inductive outcome (A : Type) :=
  | Ok (a : A)
  | Throw (message : string).
Arguments Ok {A} a.
Arguments Throw {A} message.

Definition JS (A : Type) : Type := list effect * outcome A.

Definition ret {A} (a : A) : JS A := ([], Ok a).

Definition bind {A B} (m : JS A) (f : A -> JS B) : JS B :=
  match m with
  | (eff, Throw e) => (eff, Throw e)
  | (eff, Ok a) => let '(eff2, r) := f a in (eff ++ eff2, r)
  end.

Notation "x <- m ;; k" := (bind m (fun x => k))
  (at level 100, m at next level, right associativity).
Notation "m ;;; k" := (bind m (fun _ => k))
  (at level 100, right associativity).

Definition await {A} (p : settled A) : JS A :=
  match p with
  | Resolved a => ([], Ok a)
  | Rejected e => ([], Throw e)
  end.

Definition try_catch {A} (m : JS A) (h : string -> JS A) : JS A :=
  match m with
  | (eff, Throw e) => let '(eff2, r) := h e in (eff ++ eff2, r)
  | (eff, Ok a) => (eff, Ok a)
  end.

Definition setStatus (status : string) : JS unit := ([SetStatus status], Ok tt).

Definition console_error (message : string) : JS unit :=
  ([ConsoleError message], Ok tt).

Definition success_status : string := "✅ Asset successfully minted!".

Definition error_status (message : string) : string := "❌ Error: " ++ message.

(** [async function handleMint()] *)
Definition handleMint (E : env) : JS unit :=
  try_catch
    (setStatus "Uploading file to IPFS..." ;;;
     cid <- await (ipfs_add E) ;;
     setStatus ("Uploaded: " ++ cid) ;;;
     setStatus "Connecting to wallet..." ;;;
     await (web3_provider E) ;;;
     await (request_accounts E) ;;;
     await (get_signer E) ;;;
     await (new_contract E) ;;;
     setStatus "Minting asset on-chain..." ;;;
     ([ContractRegister cid], Ok tt) ;;;
     await (contract_register E cid) ;;;
     await (tx_wait E) ;;;
     setStatus success_status)
    (fun message =>
       console_error message ;;;
       setStatus (error_status message)).

(** The status the page shows after the handler: the last one set. *)
Definition last_status (eff : list effect) : option string :=
  fold_left (fun st e => match e with SetStatus t => Some t | _ => st end) eff None.

(** The CIDs sent to [contract.register]. *)
Definition registrations (eff : list effect) : list string :=
  flat_map (fun e => match e with ContractRegister c => [c] | _ => [] end) eff.

Definition resolves {A} (p : settled A) : bool :=
  match p with Resolved _ => true | Rejected _ => false end.

(** Every awaited step of the [try] block resolves. *)
Definition all_resolve (E : env) : bool :=
  match ipfs_add E with
  | Resolved cid =>
      resolves (web3_provider E) && resolves (request_accounts E) &&
      resolves (get_signer E) && resolves (new_contract E) &&
      resolves (contract_register E cid) && resolves (tx_wait E)
  | Rejected _ => false
  end.

(** An environment where everything succeeds, and one where the upload fails. *)
Definition env_ok : env :=
  mkEnv (Resolved "bafycid") (Resolved tt) (Resolved tt) (Resolved tt)
        (Resolved tt) (fun _ => Resolved tt) (Resolved tt).

Definition env_upload_fails : env :=
  mkEnv (Rejected "network down") (Resolved tt) (Resolved tt) (Resolved tt)
        (Resolved tt) (fun _ => Resolved tt) (Resolved tt).

Example handleMint_ok :
  last_status (fst (handleMint env_ok)) = Some success_status.
Proof. reflexivity. Qed.

Example handleMint_uploaded_status :
  In (SetStatus "Uploaded: bafycid") (fst (handleMint env_ok)).
Proof. simpl; tauto. Qed.

(** Follow [handleMint] through every way each awaited step settles. *)
Ltac settle_steps :=
  unfold handleMint, all_resolve, resolves, try_catch, bind, await,
    setStatus, console_error, ret;
  repeat (cbn; match goal with
    | |- context [match ?p with Resolved _ => _ | Rejected _ => _ end] =>
        let v := fresh "v" in let m := fresh "m" in destruct p as [v|m]
    end).

Lemma error_ne_success (m : string) : error_status m <> success_status.
Proof. unfold error_status, success_status; cbn; discriminate. Qed.

(** X6: [handleMint] ends with the success status exactly when every
    awaited step resolves; then it has set the statuses in the order of
    the code and sent [contract.register] once, with the CID IPFS
    returned. *)
Theorem handleMint_success_X6 (E : env) :
  (last_status (fst (handleMint E)) = Some success_status <-> all_resolve E = true) /\
  (forall cid, ipfs_add E = Resolved cid -> all_resolve E = true ->
   handleMint E =
   ([SetStatus "Uploading file to IPFS..."; SetStatus ("Uploaded: " ++ cid);
     SetStatus "Connecting to wallet..."; SetStatus "Minting asset on-chain...";
     ContractRegister cid; SetStatus success_status], Ok tt)).
Proof.
  split.
  - settle_steps; split; intros H; try reflexivity; try discriminate;
      injection H as H; exfalso; eapply error_ne_success; exact H.
  - intros cid Hc; unfold handleMint, all_resolve; rewrite Hc; settle_steps; intros H; try discriminate;
      destruct v, v0, v1, v2, v3, v4; reflexivity.
Qed.

Lemma handleMint_success_X6_witness :
  handleMint env_ok =
  ([SetStatus "Uploading file to IPFS..."; SetStatus ("Uploaded: " ++ "bafycid");
    SetStatus "Connecting to wallet..."; SetStatus "Minting asset on-chain...";
    ContractRegister "bafycid"; SetStatus success_status], Ok tt).
Proof.
  apply (proj2 (handleMint_success_X6 env_ok) "bafycid"); reflexivity.
Defined.



(** X8: when the IPFS upload fails, [handleMint] does not touch the wallet
    or the chain: it sets the upload status, logs the error and shows the
    error status, and sends no [contract.register]. *)
Theorem handleMint_upload_fails_X8 (E : env) (m : string) :
  ipfs_add E = Rejected m ->
  handleMint E =
  ([SetStatus "Uploading file to IPFS..."; ConsoleError m;
    SetStatus (error_status m)], Ok tt).
Proof. intros H; unfold handleMint; rewrite H; reflexivity. Qed.

Lemma handleMint_upload_fails_X8_witness :
  registrations (fst (handleMint env_upload_fails)) = [].
Proof.
  rewrite (handleMint_upload_fails_X8 env_upload_fails "network down" eq_refl).
  reflexivity.
Defined.

(** X9: [handleMint] sends [contract.register] at most once, and only with
    the CID the IPFS upload returned, after the upload, the wallet
    connection, the signer and the contract object have all succeeded. *)
Theorem handleMint_register_once_X9 (E : env) :
  registrations (fst (handleMint E)) = [] \/
  exists cid, ipfs_add E = Resolved cid /\
    registrations (fst (handleMint E)) = [cid] /\
    resolves (web3_provider E) = true /\ resolves (request_accounts E) = true /\
    resolves (get_signer E) = true /\ resolves (new_contract E) = true.
Proof.
  unfold handleMint.
  destruct (ipfs_add E) as [cid | m] eqn:Hc; [| left; reflexivity].
  unfold resolves.
  destruct (web3_provider E), (request_accounts E), (get_signer E),
    (new_contract E); cbn; try (left; reflexivity).
  right; exists cid; split; [reflexivity |].
  destruct (contract_register E cid), (tx_wait E); cbn;
    (split; [reflexivity | tauto]).
Qed.

End UploadAndMint.
